(** * Call-signaling gateway of the tutoring server

    A shallow embedding of [CallGateway] (src/websockets/call.gateway.ts):
    the socket.io server the gateway drives, the gateway's own
    [socketList] registry, and one function per [@SubscribeMessage]
    handler.  State is passed explicitly; what a handler sends is returned
    as a list of emissions, each with the set of sockets it is delivered
    to. *)

From stdpp Require Import gmap strings list fin_maps fin_sets.

#[local] Set Warnings "-clear-no-such-hyp".

(** ** Data model *)

(** The value type of [socketList]:
    [{ userName: string; video: boolean; audio: boolean }]. *)
Record UserInfo := mkUserInfo {
  userName : string;
  video : bool;
  audio : bool;
}.

#[global] Instance UserInfo_eq_dec : EqDecision UserInfo.
Proof. solve_decision. Defined.

(** The part of the socket.io [Server] the gateway observes.  [sockets] is
    the set of ids of the connected sockets of the main namespace and
    [rooms] is the in-memory adapter's table from room name to the ids of
    the sockets in it.  A room name and a socket id are both plain strings
    and live in one name space: on connection a socket is put into the room
    named by its own id, which is what makes [server.to(id)] a unicast. *)
Record Server := mkServer {
  sockets : gset string;
  rooms : gmap string (gset string);
}.

(** The gateway object: the injected [server] and the private
    [socketList], a plain object used as a map from socket id to
    [UserInfo]. *)
Record Gateway := mkGateway {
  server : Server;
  socketList : gmap string UserInfo;
}.

(** ** The transport *)

(** Members of a room; a room without an entry has no members. *)
Definition membersOf (s : Server) (room : string) : gset string :=
  default ∅ (rooms s !! room).

(** [adapter.addAll(id, {room})], reached through [socket.join(room)]. *)
Definition join (id room : string) (s : Server) : Server :=
  {| sockets := sockets s;
     rooms := <[room := {[id]} ∪ membersOf s room]> (rooms s) |}.

(** [adapter.del(id, room)], reached through [socket.leave(room)]: the id
    is taken out of the room, and a room left without members is
    dropped. *)
Definition leave (id room : string) (s : Server) : Server :=
  let rest := membersOf s room ∖ {[id]} in
  {| sockets := sockets s;
     rooms := if decide (rest = ∅) then delete room (rooms s)
              else <[room := rest]> (rooms s) |}.

(** [adapter.delAll(id)]: the id is taken out of every room. *)
Definition leaveAll (id : string) (s : Server) : Server :=
  {| sockets := sockets s;
     rooms := omap (λ members : gset string,
                      let rest := members ∖ {[id]} in
                      if decide (rest = ∅) then None else Some rest)
                   (rooms s) |}.

(** A new socket: registered in the namespace and joined to the room of
    its own id. *)
Definition connect (id : string) (s : Server) : Server :=
  join id id {| sockets := {[id]} ∪ sockets s; rooms := rooms s |}.

(** A socket closing: it leaves every room and is removed from the
    namespace. *)
Definition disconnect (id : string) (s : Server) : Server :=
  let s' := leaveAll id s in
  {| sockets := sockets s' ∖ {[id]}; rooms := rooms s' |}.

(** [server.to(room).allSockets()].  The promise of the in-memory adapter
    always resolves; the rejection side is kept because [handleJoinRoom]
    has a [catch] for it. *)
Definition allSockets (s : Server) (room : string) : unit + gset string :=
  inr (membersOf s room).

(** [server.sockets.sockets[key]].  [allSockets()] exists from socket.io 3
    on, and there [Namespace.sockets] is a [Map<SocketId, Socket>].  The
    expression is a bracket read, a property access on the [Map] object; it
    does not go through [Map.prototype.get], so the map's entries are not
    consulted and no socket is ever found under a socket id.  The result is
    [undefined], here [None]; had a socket been found it would be named by
    its id. *)
Definition sockets_prop (s : Server) (key : string) : option string :=
  None.

Definition initServer : Server := {| sockets := ∅; rooms := ∅ |}.
Definition initGateway : Gateway := {| server := initServer; socketList := ∅ |}.


(** ** Messages *)

Section CallGateway.

(** The WebRTC negotiation blob ([signal: any]); the gateway forwards it
    and never looks inside. *)
Context {Signal : Type}.

(** Inbound payloads, one record per handler. *)
Record CheckUserData := { cu_roomId : string; cu_userName : string }.
Record JoinRoomData := { jr_roomId : string; jr_userName : string }.
Record CallUserData :=
  { userToCall : string; from : string; cl_signal : Signal }.
Record AcceptCallData := { ac_signal : Signal; to : string }.
Record SendMessageData :=
  { sm_roomId : string; msg : string; sender : string }.
Record LeaveRoomData := { lr_roomId : string }.
Record ToggleData := { tg_roomId : string; switchTarget : string }.

(** Outbound events with their payloads.  ['FE-error-user-exist'] is sent
    with two shapes, [{ error }] and [{ err: true }]. *)
Inductive Payload :=
  | FE_error_user_exist (error : bool)
  | FE_error_user_exist_err (err : bool)
  | FE_user_join (users : list (string * option UserInfo))
  | FE_receive_call (signal : Signal) (from : string) (info : option UserInfo)
  | FE_call_accepted (signal : Signal) (answerId : string)
  | FE_receive_message (msg sender : string)
  | FE_user_leave (userId : string) (userName : list string)
  | FE_toggle_camera (userId : string) (switchTarget : string).

(** One [emit]: the sockets it is delivered to, and what is sent. *)
Record Emit := mkEmit {
  recipients : gset string;
  payload : Payload;
}.

(** [server.to(room).emit(p)]: every socket in the room. *)
Definition server_to (s : Server) (room : string) (p : Payload) : Emit :=
  mkEmit (membersOf s room) p.

(** [client.broadcast.to(room).emit(p)].  [client.broadcast] is an
    operator that excepts the room named [client.id]; the adapter leaves
    out every socket in an excepted room.  So the message goes to the
    sockets in [room] that are not in the room of the client's id: not to
    the client itself, which is in that room from its connection on, and
    not to any socket that has joined it. *)
Definition broadcast_to (client : string) (s : Server) (room : string)
    (p : Payload) : Emit :=
  mkEmit (membersOf s room ∖ membersOf s client) p.

(** [client.emit(p)]: the client's own connection only. *)
Definition client_emit (client : string) (p : Payload) : Emit :=
  mkEmit {[client]} p.

(** What a handler leaves behind: the gateway state, the emissions in
    program order, and the exception it threw, if any. *)
Inductive Exn := TypeError.

Record Outcome := mkOutcome {
  final : Gateway;
  emitted : list Emit;
  thrown : option Exn;
}.

Definition ret (g : Gateway) (out : list Emit) : Outcome :=
  mkOutcome g out None.
Definition throw (e : Exn) (g : Gateway) (out : list Emit) : Outcome :=
  mkOutcome g out (Some e).

(** ** The handlers

    [client] is the id of the socket the event arrived on. *)

(** The body of the [forEach] in [handleCheckUser]:
    [if (this.socketList[client]?.userName === data.userName) error = true].
    [data.userName] is a string by the handler's signature, so a member
    without an entry ([undefined] on the left) never compares equal. *)
Definition check_member (sl : gmap string UserInfo) (name : string)
    (error : bool) (member : string) : bool :=
  if decide (userName <$> sl !! member = Some name) then true else error.

(** ['BE-check-user'] *)
Definition handleCheckUser (g : Gateway) (client : string)
    (data : CheckUserData) : Outcome :=
  match allSockets (server g) (cu_roomId data) with
  | inr clients =>
      let error :=
        foldl (check_member (socketList g) (cu_userName data)) false
              (elements clients) in
      ret g [client_emit client (FE_error_user_exist error)]
  | inl _ => ret g []
  end.

(** ['BE-join-room'].  [users] has one entry per member of the room after
    the join; the order in which the set is walked is not kept. *)
Definition handleJoinRoom (g : Gateway) (client : string)
    (data : JoinRoomData) : Outcome :=
  let s1 := join client (jr_roomId data) (server g) in
  let sl1 :=
    <[client := mkUserInfo (jr_userName data) true true]> (socketList g) in
  let g1 := mkGateway s1 sl1 in
  match allSockets s1 (jr_roomId data) with
  | inr clients =>
      let users := (λ clientId, (clientId, sl1 !! clientId)) <$> elements clients in
      ret g1 [broadcast_to client s1 (jr_roomId data) (FE_user_join users)]
  | inl _ => ret g1 [client_emit client (FE_error_user_exist_err true)]
  end.

(** ['BE-call-user'] *)
Definition handleCallUser (g : Gateway) (client : string)
    (data : CallUserData) : Outcome :=
  ret g [server_to (server g) (userToCall data)
            (FE_receive_call (cl_signal data) (from data)
                             (socketList g !! client))].

(** ['BE-accept-call'] *)
Definition handleAcceptCall (g : Gateway) (client : string)
    (data : AcceptCallData) : Outcome :=
  ret g [server_to (server g) (to data)
            (FE_call_accepted (ac_signal data) client)].

(** ['BE-send-message'] *)
Definition handleSendMessage (g : Gateway) (client : string)
    (data : SendMessageData) : Outcome :=
  ret g [server_to (server g) (sm_roomId data)
            (FE_receive_message (msg data) (sender data))].

(** ['BE-leave-room'].  The registry entry goes first, then the others in
    the room are told, then the socket found under [leaverId], if any,
    leaves the room. *)
Definition handleLeaveRoom (g : Gateway) (client : string)
    (data : LeaveRoomData) : Outcome :=
  let leaverId := client in
  let sl1 := delete leaverId (socketList g) in
  let out := [broadcast_to client (server g) (lr_roomId data)
                (FE_user_leave leaverId [leaverId])] in
  match sockets_prop (server g) leaverId with
  | Some socketRoom =>
      ret (mkGateway (leave socketRoom (lr_roomId data) (server g)) sl1) out
  | None => ret (mkGateway (server g) sl1) out
  end.

(** ['BE-toggle-camera-audio'].  [this.socketList[client.id].video] on a
    missing entry reads a property of [undefined], which throws before
    anything is written or sent. *)
Definition handleToggleCameraAudio (g : Gateway) (client : string)
    (data : ToggleData) : Outcome :=
  match socketList g !! client with
  | None => throw TypeError g []
  | Some info =>
      let info' :=
        if decide (switchTarget data = "video")
        then mkUserInfo (userName info) (negb (video info)) (audio info)
        else mkUserInfo (userName info) (video info) (negb (audio info)) in
      ret (mkGateway (server g) (<[client := info']> (socketList g)))
           [broadcast_to client (server g) (tg_roomId data)
              (FE_toggle_camera client (switchTarget data))]
  end.

(** [handleConnection] only logs. *)
Definition handleConnection (g : Gateway) (client : string) : Outcome :=
  ret g [].

(** ** The gateway as a transition system *)

(** What can happen to the gateway: a socket connects, a socket closes, or
    a connected socket sends one of the subscribed messages. *)
Inductive Event :=
  | Connect (id : string)
  | Disconnect (id : string)
  | BE_check_user (client : string) (data : CheckUserData)
  | BE_join_room (client : string) (data : JoinRoomData)
  | BE_call_user (client : string) (data : CallUserData)
  | BE_accept_call (client : string) (data : AcceptCallData)
  | BE_send_message (client : string) (data : SendMessageData)
  | BE_leave_room (client : string) (data : LeaveRoomData)
  | BE_toggle_camera_audio (client : string) (data : ToggleData).

(** A new connection: the transport registers the socket, then the
    gateway's [handleConnection] runs. *)
Definition onConnect (g : Gateway) (id : string) : Outcome :=
  handleConnection (mkGateway (connect id (server g)) (socketList g)) id.

(** A closed connection: the transport takes the socket out of its rooms
    and out of the namespace.  [CallGateway] implements
    [OnGatewayConnection] only; it has no [handleDisconnect], so nothing of
    the gateway runs and [socketList] is not touched. *)
Definition onDisconnect (g : Gateway) (id : string) : Outcome :=
  ret (mkGateway (disconnect id (server g)) (socketList g)) [].

Definition step (g : Gateway) (ev : Event) : Outcome :=
  match ev with
  | Connect id => onConnect g id
  | Disconnect id => onDisconnect g id
  | BE_check_user c d => handleCheckUser g c d
  | BE_join_room c d => handleJoinRoom g c d
  | BE_call_user c d => handleCallUser g c d
  | BE_accept_call c d => handleAcceptCall g c d
  | BE_send_message c d => handleSendMessage g c d
  | BE_leave_room c d => handleLeaveRoom g c d
  | BE_toggle_camera_audio c d => handleToggleCameraAudio g c d
  end.

(** The socket an event comes from must be connected; a [Connect] brings a
    fresh id. *)
Definition enabled (g : Gateway) (ev : Event) : Prop :=
  match ev with
  | Connect id => id ∉ sockets (server g)
  | Disconnect id => id ∈ sockets (server g)
  | BE_check_user c _ | BE_join_room c _ | BE_call_user c _
  | BE_accept_call c _ | BE_send_message c _ | BE_leave_room c _
  | BE_toggle_camera_audio c _ => c ∈ sockets (server g)
  end.

#[global] Instance enabled_dec g ev : Decision (enabled g ev).
Proof. destruct ev; simpl; apply _. Defined.

(** The state after a sequence of events, each handled to completion
    before the next; an event that is not enabled cannot occur and is
    skipped. *)
Definition run (g : Gateway) (evs : list Event) : Gateway :=
  foldl (λ g ev, if decide (enabled g ev) then final (step g ev) else g) g evs.

(** States the gateway can be in. *)
Inductive reachable : Gateway → Prop :=
  | reachable_init : reachable initGateway
  | reachable_step g ev :
      reachable g → enabled g ev → reachable (final (step g ev)).

End CallGateway.

(** ** Properties the specification states *)

(** Rooms joined through [join], as the specification counts them: the
    rooms a socket is in, apart from the private room of its own id that the
    transport gives every socket. *)
Definition joinedRooms (s : Server) (id : string) : gset string :=
  filter (λ room, room ≠ id ∧ id ∈ membersOf s room) (dom (rooms s)).

(** The invariant the specification gives for Presence: an entry exists
    exactly for the connections that are in exactly one room. *)
Definition presence_iff_one_room (g : Gateway) : Prop :=
  ∀ id, is_Some (socketList g !! id) ↔ size (joinedRooms (server g) id) = 1.

(** The transport's own invariant: only connected sockets are in rooms, and
    every connected socket is in the room of its own id. *)
Definition transport_ok (s : Server) : Prop :=
  (∀ room id, id ∈ membersOf s room → id ∈ sockets s) ∧
  (∀ id, id ∈ sockets s → id ∈ membersOf s id).

(** Sample connections and payloads. *)
Definition joinData (room name : string) : JoinRoomData :=
  {| jr_roomId := room; jr_userName := name |}.

(** A joins room R1 as alice. *)
Definition aliceOnly : Gateway :=
  run (Signal := unit) initGateway
      [Connect "A"; BE_join_room "A" (joinData "R1" "alice")].

(** A and B join room R1 as alice and bob; C is connected and has joined
    nothing. *)
Definition aliceAndBob : Gateway :=
  run (Signal := unit) initGateway
      [Connect "A"; Connect "B"; Connect "C";
       BE_join_room "A" (joinData "R1" "alice");
       BE_join_room "B" (joinData "R1" "bob")].

(** A and B join R1 as alice and bob; B also joins the room named by C's
    connection id; A sends a leave-room that names R2, a room it is not
    in. *)
Definition crossJoined : Gateway :=
  run (Signal := unit) initGateway
      [Connect "A"; Connect "B"; Connect "C";
       BE_join_room "A" (joinData "R1" "alice");
       BE_join_room "B" (joinData "R1" "bob");
       BE_join_room "B" (joinData "C" "bob");
       BE_leave_room "A" {| lr_roomId := "R2" |}].

(** The connection an event comes from. *)
Definition origin {Signal : Type} (ev : Event (Signal := Signal)) : string :=
  match ev with
  | Connect id | Disconnect id => id
  | BE_check_user c _ | BE_join_room c _ | BE_call_user c _
  | BE_accept_call c _ | BE_send_message c _ | BE_leave_room c _
  | BE_toggle_camera_audio c _ => c
  end.

(** Several connections joining one room, one ['BE-join-room'] after the
    other; each pair is a connection id and the name it joins under. *)
Definition joinAll {Signal : Type} (g : Gateway) (room : string)
    (joiners : list (string * string)) : Gateway :=
  foldl (λ g joiner,
           final (handleJoinRoom (Signal := Signal) g joiner.1
                    (joinData room joiner.2)))
        g joiners.

(** ** File upload

    [FileController.uploadFile] (src/file/file.controller.ts) with the
    [fileFilter] of its interceptor, and [FileService.handleFileUpload]
    (src/file/file.service.ts). *)

Module FileUpload.

(** The alternatives of [allowedFileTypes],
    [/\.(jpg|jpeg|png|gif|pdf|docx|webp)$/]. *)
Definition allowedFileTypes : list string :=
  ["jpg"; "jpeg"; "png"; "gif"; "pdf"; "docx"; "webp"].

(** [suffix] closes [s]: some tail of [s] is [suffix]. *)
Fixpoint ends_with (suffix s : string) : bool :=
  if String.eqb s suffix then true
  else match s with
       | EmptyString => false
       | String _ rest => ends_with suffix rest
       end.

(** [file.originalname.match(allowedFileTypes)]: the pattern has one
    anchor, the end of the input, so it matches when the name ends in a
    dot followed by one of the alternatives, letter case as written. *)
Definition matches_allowedFileTypes (originalname : string) : bool :=
  existsb (λ ext, ends_with ("." +:+ ext) originalname) allowedFileTypes.

(** What [fileFilter] hands to its callback:
    [callback(new Error(...), false)] or [callback(null, true)]. *)
Inductive FilterResult :=
  | Refused (message : string)
  | Accepted.

Definition fileFilter (originalname : string) : FilterResult :=
  if matches_allowedFileTypes originalname then Accepted
  else Refused "Only image, PDF, and Word files are allowed!".

(** The fields of [Express.Multer.File] the code reads. *)
Record MulterFile := { fieldname : string; originalname : string; filename : string }.

Inductive HttpException :=
  | BadRequestException (message : string)
  | InternalServerErrorException (message : string).

Definition baseUrl : string := "http://localhost:3001/api/files".

(** The [try] block of [handleFileUpload]; [file] is [None] when the
    request carried no file. *)
Definition handleFileUpload_try (file : option MulterFile)
    : HttpException + string :=
  match file with
  | None => inl (BadRequestException "File not uploaded")
  | Some f => inr (baseUrl +:+ "/" +:+ filename f)
  end.

(** [handleFileUpload]: the [catch] passes a [BadRequestException] on and
    turns anything else into an [InternalServerErrorException]. *)
Definition handleFileUpload (file : option MulterFile)
    : HttpException + string :=
  match handleFileUpload_try file with
  | inr publicPath => inr publicPath
  | inl (BadRequestException m) => inl (BadRequestException m)
  | inl _ => inl (InternalServerErrorException "Internal server error")
  end.

(** [uploadFile]: the service's answer is sent as the response body, and
    what the service throws is thrown on. *)
Definition uploadFile (file : option MulterFile) : HttpException + string :=
  match handleFileUpload file with
  | inr response => inr response
  | inl err => inl err
  end.

End FileUpload.

(** * Lemmas on the transport *)

Lemma membersOf_join id room s room' :
  membersOf (join id room s) room' =
  if decide (room = room') then {[id]} ∪ membersOf s room else membersOf s room'.
Proof.
  unfold membersOf, join; simpl.
  case_decide as Hr; [subst; by rewrite lookup_insert_eq|].
  by rewrite lookup_insert_ne.
Qed.

Lemma membersOf_leave id room s room' :
  membersOf (leave id room s) room' =
  if decide (room = room') then membersOf s room ∖ {[id]} else membersOf s room'.
Proof.
  unfold leave; simpl. set (rest := membersOf s room ∖ {[id]}).
  unfold membersOf at 1; simpl.
  destruct (decide (rest = ∅)) as [He|He]; case_decide as Hr; subst.
  - by rewrite lookup_delete_eq, He.
  - by rewrite lookup_delete_ne.
  - by rewrite lookup_insert_eq.
  - by rewrite lookup_insert_ne.
Qed.

Lemma membersOf_leaveAll id s room :
  membersOf (leaveAll id s) room = membersOf s room ∖ {[id]}.
Proof.
  unfold membersOf, leaveAll; simpl. rewrite lookup_omap.
  destruct (rooms s !! room) as [members|]; simpl; [|set_solver].
  destruct (decide (members ∖ {[id]} = ∅)) as [He|He]; simpl; [by rewrite He|done].
Qed.

Lemma membersOf_disconnect id s room :
  membersOf (disconnect id s) room = membersOf s room ∖ {[id]}.
Proof. apply membersOf_leaveAll. Qed.

Lemma membersOf_connect id s room :
  membersOf (connect id s) room =
  if decide (id = room) then {[id]} ∪ membersOf s id else membersOf s room.
Proof. unfold connect. by rewrite membersOf_join. Qed.

(** * The handlers, one by one *)

Section Handlers.
Context {Signal : Type}.
Implicit Types (g : Gateway) (client : string).

Lemma allSockets_resolves s room : allSockets s room = inr (membersOf s room).
Proof. reflexivity. Qed.

(** [handleLeaveRoom] deletes the registry entry and never reaches
    [socketRoom.leave]: the server is left as it was. *)
Lemma handleLeaveRoom_final g client (data : LeaveRoomData) :
  final (handleLeaveRoom (Signal := Signal) g client data) =
  mkGateway (server g) (delete client (socketList g)).
Proof. reflexivity. Qed.

Lemma handleLeaveRoom_removes_entry g client (data : LeaveRoomData) :
  socketList (final (handleLeaveRoom (Signal := Signal) g client data)) !! client
  = None.
Proof. rewrite handleLeaveRoom_final; simpl. apply lookup_delete_eq. Qed.

Lemma handleToggleCameraAudio_no_entry g client (data : ToggleData) :
  socketList g !! client = None →
  handleToggleCameraAudio (Signal := Signal) g client data = throw TypeError g [].
Proof. intros Hnone. unfold handleToggleCameraAudio. by rewrite Hnone. Qed.

Lemma handleToggleCameraAudio_server g client (data : ToggleData) :
  server (final (handleToggleCameraAudio (Signal := Signal) g client data)) = server g.
Proof. unfold handleToggleCameraAudio. by destruct (socketList g !! client). Qed.

Lemma handleToggleCameraAudio_dom g client (data : ToggleData) :
  dom (socketList (final (handleToggleCameraAudio (Signal := Signal) g client data)))
  = dom (socketList g).
Proof.
  unfold handleToggleCameraAudio.
  destruct (socketList g !! client) as [info|] eqn:Hc; simpl; [|done].
  rewrite dom_insert_L. apply elem_of_dom_2 in Hc. set_solver.
Qed.

(** The invariant only reads the server and the domain of the registry. *)
Lemma presence_iff_one_room_ext g g' :
  server g' = server g → dom (socketList g') = dom (socketList g) →
  presence_iff_one_room g → presence_iff_one_room g'.
Proof.
  intros Hs Hd Hinv id. rewrite Hs, <- (Hinv id), <- !elem_of_dom, Hd. done.
Qed.

(** The [forEach] of [handleCheckUser] ends with [error] set exactly when
    one of the ids visited has an entry with the name asked for. *)
Lemma check_member_foldl sl name ids acc :
  foldl (check_member sl name) acc ids = true ↔
  acc = true ∨ ∃ member info,
    member ∈ ids ∧ sl !! member = Some info ∧ userName info = name.
Proof.
  revert acc. induction ids as [|member ids IH]; intros acc; simpl.
  - split; [auto|]. intros [?|(m & i & Hin & _)]; [done|]. by apply elem_of_nil in Hin.
  - rewrite IH. unfold check_member at 1. split.
    + intros [Hacc|(m & i & Hin & Hm & Hn)].
      * case_decide as Hd; [|by left]. right.
        destruct (sl !! member) as [info|] eqn:Hm; simplify_eq/=.
        exists member, info. split; [apply elem_of_cons; by left|done].
      * right. exists m, i. split; [apply elem_of_cons; by right|done].
    + intros [Hacc|(m & i & Hin & Hm & Hn)].
      * left. subst. by case_decide.
      * apply elem_of_cons in Hin as [->|Hin].
        -- left. rewrite Hm; simpl. rewrite Hn. by case_decide.
        -- right. eauto.
Qed.

(** ** Reachable states *)

Lemma run_reachable g (evs : list (Event (Signal := Signal))) :
  reachable (Signal := Signal) g → reachable (Signal := Signal) (run g evs).
Proof.
  revert g. induction evs as [|ev evs IH]; intros g Hg; simpl; [done|].
  apply IH. case_decide; [by apply reachable_step|done].
Qed.

Lemma step_transport_ok g (ev : Event (Signal := Signal)) :
  enabled g ev → transport_ok (server g) → transport_ok (server (final (step g ev))).
Proof.
  intros Hen [Hin Hown].
  destruct ev as [id|id|c d|c d|c d|c d|c d|c d|c d]; simpl in *;
    try (by split); try (rewrite handleToggleCameraAudio_server; by split).
  - split.
    + intros room x. rewrite membersOf_connect. case_decide; set_solver.
    + intros x Hx. rewrite membersOf_connect. case_decide; set_solver.
  - split.
    + intros room x. rewrite membersOf_disconnect. set_solver.
    + intros x Hx. rewrite membersOf_disconnect. set_solver.
  - split.
    + intros room x. rewrite membersOf_join. case_decide; set_solver.
    + intros x Hx. rewrite membersOf_join. case_decide; set_solver.
Qed.

Lemma reachable_transport_ok g :
  reachable (Signal := Signal) g → transport_ok (server g).
Proof.
  induction 1 as [|g ev _ IH Hen].
  - split; unfold membersOf; simpl; [intros ??; rewrite lookup_empty|]; set_solver.
  - by apply step_transport_ok.
Qed.

(** In a reachable state a name with no members is not a connection. *)
Lemma no_members_not_connected g target :
  reachable (Signal := Signal) g →
  membersOf (server g) target = ∅ → target ∉ sockets (server g).
Proof.
  intros [_ Hown]%reachable_transport_ok Hnone Hin.
  apply Hown in Hin. rewrite Hnone in Hin. set_solver.
Qed.

End Handlers.

(** * The specification's properties, handler by handler *)

Section Properties.
Context {Signal : Type}.
Implicit Types (g : Gateway) (client : string).

(** C1, as the code has it: when a connection closes, the transport takes
    it out of every room, so no room's member set contains it any more; the
    gateway has no disconnect handler, so the registry is left exactly as
    it was (an entry of the closed connection included) and nothing is
    sent to anyone. *)
Theorem onDisconnect_leaves_rooms_keeps_socketList g id :
  let o := onDisconnect (Signal := Signal) g id in
  (∀ room, id ∉ membersOf (server (final o)) room) ∧
  (id ∉ sockets (server (final o))) ∧
  socketList (final o) = socketList g ∧
  emitted o = [] ∧ thrown o = None.
Proof.
  simpl. repeat split.
  - intros room. rewrite membersOf_disconnect. set_solver.
  - set_solver.
Qed.

(** C5, as the code has it: join-room puts the connection into the room,
    gives it the entry [{userName, video: true, audio: true}], and sends
    one ['FE-user-join'].  The list sent has an entry for each member of the
    room after the join, and for nobody else: the id with what the
    registry holds for it, which is nothing for a member without an entry;
    the joiner's entry, with its new [UserInfo], is among them.  It goes to
    the members of the room after the join that are not in the room named
    by the joiner's id. *)
Theorem handleJoinRoom_spec g client (data : JoinRoomData) :
  let o := handleJoinRoom (Signal := Signal) g client data in
  let g' := final o in
  membersOf (server g') (jr_roomId data)
    = {[client]} ∪ membersOf (server g) (jr_roomId data) ∧
  socketList g' !! client = Some (mkUserInfo (jr_userName data) true true) ∧
  thrown o = None ∧
  ∃ users,
    emitted o =
      [mkEmit (membersOf (server g') (jr_roomId data)
                 ∖ membersOf (server g') client)
              (FE_user_join users)] ∧
    (∀ id info, (id, info) ∈ users ↔
       id ∈ membersOf (server g') (jr_roomId data) ∧
       info = socketList g' !! id) ∧
    (client, Some (mkUserInfo (jr_userName data) true true)) ∈ users.
Proof.
  intros o g'.
  assert (membersOf (server g') (jr_roomId data)
          = {[client]} ∪ membersOf (server g) (jr_roomId data)) as Hroom.
  { subst g' o; simpl. by rewrite membersOf_join, decide_True. }
  assert (socketList g' !! client
          = Some (mkUserInfo (jr_userName data) true true)) as Hentry.
  { subst g' o; simpl. by rewrite lookup_insert_eq. }
  assert (∀ id info,
            (id, info) ∈ (λ clientId, (clientId, socketList g' !! clientId))
                           <$> elements (membersOf (server g') (jr_roomId data))
            ↔ id ∈ membersOf (server g') (jr_roomId data) ∧
              info = socketList g' !! id) as Husers.
  { intros id info. rewrite list_elem_of_fmap. split.
    - intros (x & [= -> ->] & Hx). by apply elem_of_elements in Hx.
    - intros [Hin ->]. exists id. split; [done|]. by apply elem_of_elements. }
  split; [exact Hroom|]. split; [exact Hentry|]. split; [done|].
  exists ((λ clientId, (clientId, socketList g' !! clientId))
            <$> elements (membersOf (server g') (jr_roomId data))).
  split; [reflexivity|]. split; [exact Husers|].
  apply Husers. rewrite Hroom, Hentry. split; [set_solver|done].
Qed.

(** C6: check-name-in-use changes nothing and sends one
    ['FE-error-user-exist'] to the asking connection alone; its flag is
    true exactly when some member of the room has a registry entry whose
    [userName] is the string asked for. *)
Theorem handleCheckUser_spec g client (data : CheckUserData) :
  ∃ error : bool,
    handleCheckUser (Signal := Signal) g client data
      = ret g [mkEmit {[client]} (FE_error_user_exist error)] ∧
    (error = true ↔
     ∃ member info,
       member ∈ membersOf (server g) (cu_roomId data) ∧
       socketList g !! member = Some info ∧
       userName info = cu_userName data).
Proof.
  unfold handleCheckUser. rewrite allSockets_resolves. eexists. split; [done|].
  rewrite check_member_foldl. split.
  - intros [?|(m & i & Hin & ?)]; [done|]. apply elem_of_elements in Hin. eauto.
  - intros (m & i & Hin & ?). right. exists m, i. by rewrite elem_of_elements.
Qed.

(** C8: a second join-room of the same connection into the same room
    leaves the room with as many members as the first did. *)
Theorem handleJoinRoom_twice_size g client room name1 name2 :
  let g1 := final (handleJoinRoom (Signal := Signal) g client (joinData room name1)) in
  let g2 := final (handleJoinRoom (Signal := Signal) g1 client (joinData room name2)) in
  membersOf (server g2) room = membersOf (server g1) room ∧
  size (membersOf (server g2) room) = size (membersOf (server g1) room).
Proof.
  simpl. rewrite !membersOf_join, !decide_True by done.
  assert ({[client]} ∪ ({[client]} ∪ membersOf (server g) room)
          = {[client]} ∪ membersOf (server g) room) as -> by set_solver.
  done.
Qed.

(** C10: send-room-message sends [{msg, sender}] to all members of the
    room named in the payload; the sending connection plays no part, be it
    a member or not, with or without a registry entry. *)
Theorem handleSendMessage_spec g client (data : SendMessageData) :
  handleSendMessage (Signal := Signal) g client data
    = ret g [mkEmit (membersOf (server g) (sm_roomId data))
                    (FE_receive_message (msg data) (sender data))] ∧
  ∀ client', handleSendMessage (Signal := Signal) g client' data
             = handleSendMessage g client data.
Proof. done. Qed.

(** C7, as the code has it: a call-user or accept-call whose target names
    no room with a member in it (so neither a live connection, which is
    always in the room of its own id, nor a room somebody joined) is a
    no-op: the state is unchanged, nothing is thrown, and the one emission
    made reaches no socket, the sender included. *)
Theorem relay_to_nobody g client target :
  membersOf (server g) target = ∅ →
  (∀ data : CallUserData, userToCall data = target →
     let o := handleCallUser (Signal := Signal) g client data in
     final o = g ∧ thrown o = None ∧ ∀ e, e ∈ emitted o → recipients e = ∅) ∧
  (∀ data : AcceptCallData, to data = target →
     let o := handleAcceptCall (Signal := Signal) g client data in
     final o = g ∧ thrown o = None ∧ ∀ e, e ∈ emitted o → recipients e = ∅).
Proof.
  intros Hnobody. split; intros data <-; simpl; repeat split;
    intros e ->%list_elem_of_singleton; done.
Qed.

(** C3, as the code has it: join-room leaves the connection with a registry
    entry and in the room named, without taking it out of any other room;
    check-name-in-use, call-user, accept-call, send-room-message and
    toggle-media change neither the server's rooms nor the set of
    connections that have an entry, so whatever holds between the two
    before, the specification's invariant included, holds after. *)
Theorem presence_and_membership_by_handler g client :
  (∀ data : JoinRoomData,
     let g' := final (handleJoinRoom (Signal := Signal) g client data) in
     is_Some (socketList g' !! client) ∧
     client ∈ membersOf (server g') (jr_roomId data) ∧
     ∀ room, membersOf (server g) room ⊆ membersOf (server g') room) ∧
  (∀ ev : Event (Signal := Signal),
     match ev with
     | BE_check_user _ _ | BE_call_user _ _ | BE_accept_call _ _
     | BE_send_message _ _ | BE_toggle_camera_audio _ _ =>
         server (final (step g ev)) = server g ∧
         dom (socketList (final (step g ev))) = dom (socketList g) ∧
         (presence_iff_one_room g → presence_iff_one_room (final (step g ev)))
     | _ => True
     end).
Proof.
  split.
  - intros data; simpl. rewrite lookup_insert_eq. split; [eauto|]. split.
    + rewrite membersOf_join, decide_True by done. set_solver.
    + intros room. rewrite membersOf_join. case_decide; set_solver.
  - intros [id|id|c d|c d|c d|c d|c d|c d|c d]; try exact I;
      try (split; [reflexivity|split; [reflexivity|intros Hinv; exact Hinv]]).
    pose proof (handleToggleCameraAudio_server (Signal := Signal) g c d) as Hs.
    pose proof (handleToggleCameraAudio_dom (Signal := Signal) g c d) as Hd.
    simpl. split; [exact Hs|]. split; [exact Hd|].
    by apply presence_iff_one_room_ext.
Qed.

End Properties.

(** * Sample runs *)

Lemma aliceOnly_reachable : reachable (Signal := unit) aliceOnly.
Proof. apply run_reachable, reachable_init. Qed.

Lemma aliceAndBob_reachable : reachable (Signal := unit) aliceAndBob.
Proof. apply run_reachable, reachable_init. Qed.

Lemma elem_of_joinedRooms s id room :
  room ∈ joinedRooms s id ↔ room ≠ id ∧ id ∈ membersOf s room.
Proof.
  unfold joinedRooms. rewrite elem_of_filter, elem_of_dom. split; [tauto|].
  intros [Hne Hin]. repeat split; [done..|].
  unfold membersOf in Hin. destruct (rooms s !! room); [eauto|set_solver].
Qed.

(** With A alone in R1 the specification's invariant holds. *)
Lemma aliceOnly_presence_iff_one_room : presence_iff_one_room aliceOnly.
Proof.
  intros id. destruct (decide (id = "A")) as [->|Hne].
  - split; intros _; [by vm_compute|vm_compute; eauto].
  - split.
    + intros Hs%elem_of_dom. exfalso. apply Hne.
      assert (dom (socketList aliceOnly) = {["A"]}) as Hd by (by vm_compute).
      rewrite Hd in Hs. set_solver.
    + intros Hsz. exfalso. apply Hne.
      destruct (set_choose_L (joinedRooms (server aliceOnly) id)) as [room Hroom].
      { intros He. rewrite He, size_empty in Hsz. lia. }
      apply elem_of_joinedRooms in Hroom as [_ Hin].
      apply (reachable_transport_ok (Signal := unit) _ aliceOnly_reachable) in Hin.
      assert (sockets (server aliceOnly) = {["A"]}) as Hs by (by vm_compute).
      rewrite Hs in Hin. set_solver.
Qed.

(** The specification's scenario for check-name-in-use: with alice and bob
    in R1, a third connection asking for alice is told the name is in use,
    and asking for carol, or for Alice with a capital, is told it is not. *)
Example handleCheckUser_scenario :
  handleCheckUser (Signal := unit) aliceAndBob "C"
    {| cu_roomId := "R1"; cu_userName := "alice" |}
    = ret aliceAndBob [mkEmit {["C"]} (FE_error_user_exist true)] ∧
  handleCheckUser (Signal := unit) aliceAndBob "C"
    {| cu_roomId := "R1"; cu_userName := "carol" |}
    = ret aliceAndBob [mkEmit {["C"]} (FE_error_user_exist false)] ∧
  handleCheckUser (Signal := unit) aliceAndBob "C"
    {| cu_roomId := "R1"; cu_userName := "Alice" |}
    = ret aliceAndBob [mkEmit {["C"]} (FE_error_user_exist false)].
Proof. repeat split; by vm_compute. Qed.

(** C5 fails on the code: C joins R1, where A and B are, in a reachable
    state in which A has no registry entry and B is also in the room named
    by C's id.  The list sent has an entry for A that carries no
    [UserInfo], and the message goes to A alone: B, a member of R1 that is
    not the joiner, does not get it. *)
Lemma handleJoinRoom_entry_without_info_and_member_left_out :
  let o := handleJoinRoom (Signal := unit) crossJoined "C" (joinData "R1" "carol") in
  reachable (Signal := unit) crossJoined ∧
  membersOf (server (final o)) "R1" = {["A"; "B"; "C"]} ∧
  ∃ e users,
    emitted o = [e] ∧
    payload e = FE_user_join users ∧
    ("A", None) ∈ users ∧
    recipients e = {["A"]} ∧
    "B" ∉ recipients e.
Proof.
  intros o. split; [apply run_reachable, reachable_init|].
  split; [by vm_compute|].
  eexists (mkEmit _ (FE_user_join _)), _. split; [by vm_compute|].
  split; [reflexivity|]. split; [|split; by vm_compute].
  apply list_elem_of_In. vm_compute. tauto.
Qed.

(** C1 fails on the code: A joins R1 as alice and its connection closes;
    A is out of R1, but looking A up in the registry still finds alice. *)
Lemma onDisconnect_presence_survives :
  let g' := final (onDisconnect (Signal := unit) aliceOnly "A") in
  "A" ∈ membersOf (server aliceOnly) "R1" ∧
  ("A" ∉ membersOf (server g') "R1") ∧
  socketList g' !! "A" = Some (mkUserInfo "alice" true true).
Proof. repeat split; by vm_compute. Qed.

(** C2 on the code: A joins R1 and leaves it, so it has no registry entry;
    its toggle-media then throws a [TypeError] instead of completing.
    The registry and rooms are unchanged and nothing is sent. *)
Theorem handleToggleCameraAudio_throws_without_entry :
  let g := final (handleLeaveRoom (Signal := unit) aliceAndBob "A"
                    {| lr_roomId := "R1" |}) in
  let o := handleToggleCameraAudio (Signal := unit) g "A"
             {| tg_roomId := "R1"; switchTarget := "video" |} in
  socketList g !! "A" = None ∧
  thrown o = Some TypeError ∧ final o = g ∧ emitted o = [].
Proof. repeat split. Qed.

(** C3 fails on the code: A joins R1 and then R2.  The state is reachable,
    A has a registry entry, and A is in two rooms, not one. *)
Lemma second_join_breaks_presence_iff_one_room :
  let g' := final (handleJoinRoom (Signal := unit) aliceOnly "A"
                     (joinData "R2" "alice")) in
  presence_iff_one_room aliceOnly ∧
  reachable (Signal := unit) g' ∧
  is_Some (socketList g' !! "A") ∧
  joinedRooms (server g') "A" = {["R1"; "R2"]} ∧
  ¬ presence_iff_one_room g'.
Proof.
  intros g'.
  assert (joinedRooms (server g') "A" = {["R1"; "R2"]}) as Hrooms
    by (by vm_compute).
  assert (is_Some (socketList g' !! "A")) as Hs by (vm_compute; eauto).
  split; [apply aliceOnly_presence_iff_one_room|]. split.
  - apply (reachable_step (Signal := unit) aliceOnly
             (BE_join_room "A" (joinData "R2" "alice")));
      [apply aliceOnly_reachable|by vm_compute].
  - split; [exact Hs|]. split; [exact Hrooms|].
    intros Hinv. apply (Hinv "A") in Hs. rewrite Hrooms in Hs.
    by vm_compute in Hs.
Qed.

(** Witness for C3: A toggles its video while alone in R1. *)
Lemma presence_and_membership_by_handler_witness :
  presence_iff_one_room aliceOnly ∧
  presence_iff_one_room
    (final (step (Signal := unit) aliceOnly
              (BE_toggle_camera_audio "A"
                 {| tg_roomId := "R1"; switchTarget := "video" |}))).
Proof.
  split; [apply aliceOnly_presence_iff_one_room|].
  apply (proj2 (presence_and_membership_by_handler (Signal := unit) aliceOnly "A")
           (BE_toggle_camera_audio "A"
              {| tg_roomId := "R1"; switchTarget := "video" |})).
  apply aliceOnly_presence_iff_one_room.
Defined.

(** C4 on the code: with A and B in R1, A's leave-room for R1 removes A's
    registry entry, but A is still a member of R1 afterwards. *)
Theorem handleLeaveRoom_stays_member :
  let o := handleLeaveRoom (Signal := unit) aliceAndBob "A"
             {| lr_roomId := "R1" |} in
  membersOf (server aliceAndBob) "R1" = {["A"; "B"]} ∧
  thrown o = None ∧
  socketList (final o) !! "A" = None ∧
  membersOf (server (final o)) "R1" = {["A"; "B"]} ∧
  "A" ∈ membersOf (server (final o)) "R1".
Proof. repeat split; by vm_compute. Qed.

(** C7 fails on the code: R1 is not the id of any connection, yet A's
    call-user addressed to R1 is delivered to the members of room R1, A
    itself among them. *)
Lemma relay_to_room_name_is_delivered :
  let o := handleCallUser (Signal := unit) aliceAndBob "A"
             {| userToCall := "R1"; from := "A"; cl_signal := tt |} in
  ("R1" ∉ sockets (server aliceAndBob)) ∧
  emitted o = [mkEmit {["A"; "B"]}
                 (FE_receive_call tt "A" (Some (mkUserInfo "alice" true true)))] ∧
  ∃ e, e ∈ emitted o ∧ "A" ∈ recipients e ∧ "B" ∈ recipients e.
Proof.
  intros o. split; [by vm_compute|]. split; [by vm_compute|].
  exists (mkEmit {["A"; "B"]}
            (FE_receive_call tt "A" (Some (mkUserInfo "alice" true true)))).
  split; [by apply list_elem_of_singleton|]. split; by vm_compute.
Qed.

(** Witness for C7: nobody is connected as Z and no room is called Z. *)
Lemma relay_to_nobody_witness :
  membersOf (server aliceAndBob) "Z" = ∅ ∧
  let o := handleCallUser (Signal := unit) aliceAndBob "A"
             {| userToCall := "Z"; from := "A"; cl_signal := tt |} in
  final o = aliceAndBob ∧ thrown o = None ∧
  ∀ e, e ∈ emitted o → recipients e = ∅.
Proof.
  split; [by vm_compute|].
  apply (proj1 (relay_to_nobody (Signal := unit) aliceAndBob "A" "Z"
                  ltac:(by vm_compute))
           {| userToCall := "Z"; from := "A"; cl_signal := tt |}).
  reflexivity.
Defined.

(** C9: the message call-user delivers carries [from] as the payload gave
    it and [info] as the registry entry of the connection the event came
    in on; when A, registered as alice, sends [from: "B"], the target gets
    [from] B together with alice's entry, which is not B's. *)
Theorem handleCallUser_from_is_payload :
  (∀ (Signal : Type) (g : Gateway) (client : string)
     (data : CallUserData (Signal := Signal)),
     handleCallUser g client data
       = ret g [mkEmit (membersOf (server g) (userToCall data))
                  (FE_receive_call (cl_signal data) (from data)
                                   (socketList g !! client))]) ∧
  (∃ (g : Gateway) (client : string) (data : CallUserData (Signal := unit)),
     reachable (Signal := unit) g ∧
     from data ≠ client ∧
     socketList g !! client ≠ socketList g !! from data ∧
     emitted (handleCallUser g client data)
       = [mkEmit {[userToCall data]}
            (FE_receive_call tt (from data) (socketList g !! client))]).
Proof.
  split; [done|].
  exists aliceAndBob, "A", {| userToCall := "C"; from := "B"; cl_signal := tt |}.
  split; [apply aliceAndBob_reachable|]. repeat split; by vm_compute.
Qed.

(** * Further properties of the gateway *)

Section Gateway.
Context {Signal : Type}.
Implicit Types (g : Gateway) (client : string).

(** The flag [handleCheckUser] sends, in terms of the room and the
    registry it runs on. *)
Lemma handleCheckUser_flag g client (data : CheckUserData) :
  ∃ error : bool,
    handleCheckUser (Signal := Signal) g client data
      = ret g [mkEmit {[client]} (FE_error_user_exist error)] ∧
    (error = true ↔
     ∃ member info,
       member ∈ membersOf (server g) (cu_roomId data) ∧
       socketList g !! member = Some info ∧
       userName info = cu_userName data).
Proof.
  unfold handleCheckUser. rewrite allSockets_resolves. eexists. split; [done|].
  rewrite check_member_foldl. split.
  - intros [?|(m & i & Hin & ?)]; [done|]. apply elem_of_elements in Hin. eauto.
  - intros (m & i & Hin & ?). right. exists m, i. by rewrite elem_of_elements.
Qed.

Lemma foldl_agree {A B} (f f' : A → B → A) (l : list B) (a : A) :
  (∀ acc x, x ∈ l → f acc x = f' acc x) → foldl f a l = foldl f' a l.
Proof.
  revert a. induction l as [|x l IH]; intros a Hext; simpl; [done|].
  rewrite (Hext a x) by (apply elem_of_cons; by left).
  apply IH. intros acc y Hy. apply Hext, elem_of_cons. by right.
Qed.

Lemma fmap_pair_fst {A B} (f : A → B) (l : list A) :
  ((λ x, (x, f x)) <$> l).*1 = l.
Proof. induction l as [|x l IH]; simpl; [done|]. f_equal. exact IH. Qed.

(** X1: whatever happens, the registry entry of any connection other than
    the one the event comes from is left as it was: no handler writes or
    deletes somebody else's entry. *)
Theorem step_keeps_other_entries g (ev : Event (Signal := Signal)) id :
  id ≠ origin ev →
  socketList (final (step g ev)) !! id = socketList g !! id.
Proof.
  intros Hne. destruct ev as [c|c|c d|c d|c d|c d|c d|c d|c d];
    simpl in *; try done.
  - by rewrite lookup_insert_ne.
  - by rewrite lookup_delete_ne.
  - unfold handleToggleCameraAudio.
    destruct (socketList g !! c); simpl; [by rewrite lookup_insert_ne|done].
Qed.

(** X2: a connection that has a registry entry and sends the same
    toggle-media twice is back where it started: neither call throws and
    the gateway state after the second is the state before the first. *)
Theorem handleToggleCameraAudio_twice g client (data : ToggleData) :
  is_Some (socketList g !! client) →
  let o1 := handleToggleCameraAudio (Signal := Signal) g client data in
  let o2 := handleToggleCameraAudio (Signal := Signal) (final o1) client data in
  thrown o1 = None ∧ thrown o2 = None ∧ final o2 = g.
Proof.
  intros [info Hinfo]. destruct g as [s sl]; simpl in *.
  unfold handleToggleCameraAudio; simpl. rewrite Hinfo; simpl.
  rewrite lookup_insert_eq; simpl. repeat split.
  rewrite insert_insert_eq. f_equal. apply insert_id. rewrite Hinfo. f_equal.
  destruct info as [n v a]; simpl. case_decide; simpl; by rewrite negb_involutive.
Qed.

(** X3: after its join-room a connection's toggle-media does not throw,
    whatever the state before; after its leave-room it throws a
    [TypeError], whichever room the leave named. *)
Theorem handleToggleCameraAudio_after_join_and_leave g client
    (jd : JoinRoomData) (ld : LeaveRoomData) (td : ToggleData) :
  thrown (handleToggleCameraAudio (Signal := Signal)
            (final (handleJoinRoom (Signal := Signal) g client jd)) client td)
    = None ∧
  thrown (handleToggleCameraAudio (Signal := Signal)
            (final (handleLeaveRoom (Signal := Signal) g client ld)) client td)
    = Some TypeError.
Proof.
  split.
  - unfold handleToggleCameraAudio; simpl. by rewrite lookup_insert_eq.
  - rewrite handleToggleCameraAudio_no_entry; [done|].
    apply handleLeaveRoom_removes_entry.
Qed.

(** X4: an exception comes out of a step only in one way: a [TypeError]
    from toggle-media sent by a connection without a registry entry.  No
    other event throws in any state. *)
Theorem step_throws_iff g (ev : Event (Signal := Signal)) :
  (thrown (step g ev) = Some TypeError ↔
   ∃ c d, ev = BE_toggle_camera_audio c d ∧ socketList g !! c = None) ∧
  (thrown (step g ev) = None ∨ thrown (step g ev) = Some TypeError).
Proof.
  split; [split|].
  - destruct ev as [c|c|c d|c d|c d|c d|c d|c d|c d]; simpl; try done.
    unfold handleToggleCameraAudio.
    destruct (socketList g !! c) eqn:Hc; simpl; [done|]. eauto.
  - intros (c & d & -> & Hc). simpl.
    by rewrite handleToggleCameraAudio_no_entry.
  - destruct ev as [c|c|c d|c d|c d|c d|c d|c d|c d]; simpl; auto.
    unfold handleToggleCameraAudio. destruct (socketList g !! c); simpl; auto.
Qed.

(** X5: in a reachable state, what join-room, leave-room and
    toggle-media of a connected socket send never comes back to that
    socket. *)
Theorem sender_not_among_recipients g client :
  reachable (Signal := Signal) g → client ∈ sockets (server g) →
  (∀ (d : JoinRoomData) e,
     e ∈ emitted (handleJoinRoom (Signal := Signal) g client d) →
     client ∉ recipients e) ∧
  (∀ (d : LeaveRoomData) e,
     e ∈ emitted (handleLeaveRoom (Signal := Signal) g client d) →
     client ∉ recipients e) ∧
  (∀ (d : ToggleData) e,
     e ∈ emitted (handleToggleCameraAudio (Signal := Signal) g client d) →
     client ∉ recipients e).
Proof.
  intros [_ Hown]%reachable_transport_ok Hc%Hown.
  repeat split; intros d e.
  - simpl. intros ->%list_elem_of_singleton. simpl.
    rewrite (membersOf_join client (jr_roomId d) (server g) client).
    case_decide; set_solver.
  - simpl. intros ->%list_elem_of_singleton. simpl. set_solver.
  - unfold handleToggleCameraAudio. destruct (socketList g !! client); simpl.
    + intros ->%list_elem_of_singleton. simpl. set_solver.
    + by intros ?%elem_of_nil.
Qed.

(** X6: in every state the gateway can reach, a room holds ids of
    connected sockets only; closed connections are in no room. *)
Theorem reachable_rooms_hold_connected g room id :
  reachable (Signal := Signal) g →
  id ∈ membersOf (server g) room → id ∈ sockets (server g).
Proof. intros [Hin _]%reachable_transport_ok. apply Hin. Qed.

(** X7: in every reachable state, whatever an event makes the gateway
    send is addressed to connections that are connected once the event is
    handled; nothing is sent towards a closed connection. *)
Theorem emissions_reach_connected g (ev : Event (Signal := Signal)) e :
  reachable (Signal := Signal) g → enabled g ev →
  e ∈ emitted (step g ev) →
  recipients e ⊆ sockets (server (final (step g ev))).
Proof.
  intros Hg Hen He.
  pose proof (reachable_transport_ok _ (reachable_step _ _ Hg Hen)) as [Hin _].
  destruct ev as [c|c|c d|c d|c d|c d|c d|c d|c d]; simpl in *;
    try (by apply elem_of_nil in He);
    try (apply list_elem_of_singleton in He as ->; simpl;
         intros x Hx; by eapply Hin).
  - apply list_elem_of_singleton in He as ->; simpl. set_solver.
  - apply list_elem_of_singleton in He as ->; simpl.
    intros x [Hx _]%elem_of_difference. by eapply Hin.
  - apply list_elem_of_singleton in He as ->; simpl.
    intros x [Hx _]%elem_of_difference. by eapply Hin.
  - rewrite handleToggleCameraAudio_server in Hin |- *.
    unfold handleToggleCameraAudio in He.
    destruct (socketList g !! c); simpl in He; [|by apply elem_of_nil in He].
    apply list_elem_of_singleton in He as ->; simpl.
    intros x [Hx _]%elem_of_difference. by eapply Hin.
Qed.

(** X8: in every reachable state a call-user or accept-call addressed to
    the id of a connected socket emits its message, the payload's signal
    with it, to a set of sockets that contains that socket: a live
    connection is always in the room of its own id. *)
Theorem relay_reaches_live_target g client target :
  reachable (Signal := Signal) g → target ∈ sockets (server g) →
  (∀ data : CallUserData, userToCall data = target →
     ∃ e, e ∈ emitted (handleCallUser (Signal := Signal) g client data) ∧
          target ∈ recipients e ∧
          payload e = FE_receive_call (cl_signal data) (from data)
                                      (socketList g !! client)) ∧
  (∀ data : AcceptCallData, to data = target →
     ∃ e, e ∈ emitted (handleAcceptCall (Signal := Signal) g client data) ∧
          target ∈ recipients e ∧
          payload e = FE_call_accepted (ac_signal data) client).
Proof.
  intros [_ Hown]%reachable_transport_ok Hlive%Hown.
  split; intros data <-; eexists;
    (split; [by apply list_elem_of_singleton|]); by split.
Qed.

(** X9: the relays are not private to the target: right after a
    connection has joined the room named like a target, a call-user or
    accept-call addressed to that target emits its message to a set of
    sockets that contains the joiner. *)
Theorem join_then_relay_reaches_joiner g joiner name client :
  (∀ data : CallUserData,
     let g' := final (handleJoinRoom (Signal := Signal) g joiner
                        (joinData (userToCall data) name)) in
     ∃ e, e ∈ emitted (handleCallUser (Signal := Signal) g' client data) ∧
          joiner ∈ recipients e ∧
          payload e = FE_receive_call (cl_signal data) (from data)
                                      (socketList g' !! client)) ∧
  (∀ data : AcceptCallData,
     let g' := final (handleJoinRoom (Signal := Signal) g joiner
                        (joinData (to data) name)) in
     ∃ e, e ∈ emitted (handleAcceptCall (Signal := Signal) g' client data) ∧
          joiner ∈ recipients e ∧
          payload e = FE_call_accepted (ac_signal data) client).
Proof.
  split; intros data g'; eexists;
    (split; [by apply list_elem_of_singleton|]); (split; [|done]);
    simpl; rewrite membersOf_join, decide_True by done; set_solver.
Qed.

(** X10: the list join-room sends names every member of the room after the
    join exactly once, each with what the registry holds for it; it is as
    long as the room is large. *)
Theorem handleJoinRoom_users g client (data : JoinRoomData) :
  let g' := final (handleJoinRoom (Signal := Signal) g client data) in
  ∃ to_whom users,
    emitted (handleJoinRoom (Signal := Signal) g client data)
      = [mkEmit to_whom (FE_user_join users)] ∧
    NoDup users.*1 ∧
    length users = size (membersOf (server g') (jr_roomId data)) ∧
    ∀ id info, (id, info) ∈ users ↔
      id ∈ membersOf (server g') (jr_roomId data) ∧ info = socketList g' !! id.
Proof.
  intros g'. unfold handleJoinRoom. rewrite allSockets_resolves. simpl.
  eexists _, _. split; [reflexivity|]. fold g'.
  split; [rewrite fmap_pair_fst; apply NoDup_elements|].
  split; [by rewrite length_fmap|].
  intros id info. rewrite list_elem_of_fmap. split.
  - intros (x & [= -> ->] & Hx). by apply elem_of_elements in Hx.
  - intros [Hin ->]. exists id. split; [done|]. by apply elem_of_elements.
Qed.

(** X11: a connection that has closed, or has sent leave-room, no longer
    makes its name count as in use: check-name-in-use then answers true
    exactly when one of the other members of the room carries the name. *)
Theorem departed_name_is_free g gone client (data : CheckUserData)
    (ld : LeaveRoomData) :
  let taken := ∃ member info,
    member ≠ gone ∧ member ∈ membersOf (server g) (cu_roomId data) ∧
    socketList g !! member = Some info ∧ userName info = cu_userName data in
  (∃ error : bool,
     emitted (handleCheckUser (Signal := Signal)
                (final (onDisconnect (Signal := Signal) g gone)) client data)
       = [mkEmit {[client]} (FE_error_user_exist error)] ∧
     (error = true ↔ taken)) ∧
  (∃ error : bool,
     emitted (handleCheckUser (Signal := Signal)
                (final (handleLeaveRoom (Signal := Signal) g gone ld)) client data)
       = [mkEmit {[client]} (FE_error_user_exist error)] ∧
     (error = true ↔ taken)).
Proof.
  intros taken. split.
  - destruct (handleCheckUser_flag (final (onDisconnect (Signal := Signal) g gone))
                client data) as (error & -> & Hflag).
    exists error. split; [done|]. rewrite Hflag. simpl. unfold taken.
    split; intros (m & i & Hm & Hi & Hn).
    + rewrite membersOf_disconnect in Hm. exists m, i. set_solver.
    + exists m, i. rewrite membersOf_disconnect. set_solver.
  - destruct (handleCheckUser_flag (final (handleLeaveRoom (Signal := Signal) g gone ld))
                client data) as (error & -> & Hflag).
    exists error. split; [done|]. rewrite Hflag, handleLeaveRoom_final. simpl.
    unfold taken. split.
    + intros (m & i & Hm & [Hne Hi]%lookup_delete_Some & Hn). exists m, i. eauto.
    + intros (m & i & Hne & Hm & Hi & Hn). exists m, i.
      rewrite lookup_delete_Some. eauto.
Qed.

(** X12: leave-room never throws, also from a connection without a
    registry entry; in that case the registry stays as it is, and a second
    leave-room changes nothing in the registry the first did not.  Every
    member of the room named that is not in the room of the sender's id is
    told that the sender left, whether or not the sender was in the room
    named. *)
Theorem handleLeaveRoom_registry g client (d d' : LeaveRoomData) :
  let o := handleLeaveRoom (Signal := Signal) g client d in
  thrown o = None ∧
  (socketList g !! client = None → socketList (final o) = socketList g) ∧
  socketList (final (handleLeaveRoom (Signal := Signal) (final o) client d'))
    = socketList (final o) ∧
  (∀ member, member ∈ membersOf (server g) (lr_roomId d) →
     member ∉ membersOf (server g) client →
     ∃ e, e ∈ emitted o ∧ member ∈ recipients e ∧
          payload e = FE_user_leave client [client]).
Proof.
  simpl. split; [done|]. split; [apply delete_id|].
  split; [apply delete_delete_eq|].
  intros member Hin Hne. eexists. split; [by apply list_elem_of_singleton|].
  simpl. set_solver.
Qed.

(** X13: the entry a closed connection leaves behind in the registry is
    never read.  In a reachable state, for an id that is not connected,
    every event is answered with the same emissions and the same outcome
    whether that id's entry is there or not, and the states after differ
    in that entry alone. *)
Theorem stale_entry_never_read g (ev : Event (Signal := Signal)) id :
  reachable (Signal := Signal) g →
  id ∉ sockets (server g) →
  enabled g ev →
  let g0 := mkGateway (server g) (delete id (socketList g)) in
  emitted (step g0 ev) = emitted (step g ev) ∧
  thrown (step g0 ev) = thrown (step g ev) ∧
  server (final (step g0 ev)) = server (final (step g ev)) ∧
  socketList (final (step g0 ev)) = delete id (socketList (final (step g ev))).
Proof.
  intros [Hin _]%reachable_transport_ok Hgone Hen g0.
  assert (∀ room x, x ∈ membersOf (server g) room → x ≠ id) as Hmem.
  { intros room x Hx ->. apply Hgone. by eapply Hin. }
  destruct g as [s sl]; simpl in *. subst g0.
  destruct ev as [c|c|c d|c d|c d|c d|c d|c d|c d]; simpl in *.
  - done.
  - done.
  - repeat split. do 3 f_equal. apply foldl_agree.
    intros acc x Hx%elem_of_elements%Hmem. unfold check_member.
    by rewrite lookup_delete_ne.
  - assert (c ≠ id) as Hc by (by intros ->).
    split; [|split; [done|split; [done|by rewrite delete_insert_ne]]].
    do 3 f_equal. apply list_fmap_ext. intros i x Hx%list_elem_of_lookup_2.
    apply elem_of_elements in Hx. rewrite membersOf_join, decide_True in Hx by done.
    f_equal. destruct (decide (x = c)) as [->|Hxc].
    + by rewrite !lookup_insert_eq.
    + rewrite !lookup_insert_ne by done. rewrite lookup_delete_ne; [done|].
      apply elem_of_union in Hx as [Hx|Hx]; [set_solver|]. symmetry. by eapply Hmem.
  - assert (c ≠ id) as Hc by (by intros ->).
    repeat split. by rewrite lookup_delete_ne.
  - done.
  - done.
  - repeat split. apply delete_delete.
  - assert (c ≠ id) as Hc by (by intros ->).
    unfold handleToggleCameraAudio; simpl. rewrite lookup_delete_ne by done.
    destruct (sl !! c) as [info|]; simpl; [|done].
    repeat split. by rewrite delete_insert_ne.
Qed.

(** X14: joins add up.  After any number of connections have joined one
    room, one after the other, the room holds exactly its earlier members
    and all the joiners, and every other room is as it was. *)
Theorem joinAll_members (joiners : list (string * string)) g room room' :
  membersOf (server (joinAll (Signal := Signal) g room joiners)) room' =
  if decide (room = room')
  then list_to_set joiners.*1 ∪ membersOf (server g) room
  else membersOf (server g) room'.
Proof.
  revert g. induction joiners as [|[c name] joiners IH]; intros g; simpl.
  - case_decide; [subst|]; set_solver.
  - unfold joinAll in IH |- *. simpl. rewrite IH. simpl.
    destruct (decide (room = room')) as [<-|Hr].
    + rewrite membersOf_join, decide_True by done. set_solver.
    + by rewrite membersOf_join, decide_False.
Qed.

(** X15: a closing connection takes nobody else with it: every other
    connection is in exactly the rooms it was in before, and stays
    connected. *)
Theorem onDisconnect_keeps_others g id other :
  other ≠ id →
  let g' := final (onDisconnect (Signal := Signal) g id) in
  (∀ room, other ∈ membersOf (server g') room ↔ other ∈ membersOf (server g) room) ∧
  (other ∈ sockets (server g') ↔ other ∈ sockets (server g)).
Proof.
  intros Hne; simpl. split.
  - intros room. rewrite membersOf_disconnect. set_solver.
  - set_solver.
Qed.

End Gateway.

(** * File upload *)

Lemma append_nil_l s : "" +:+ s = s.
Proof. reflexivity. Qed.

Lemma append_cons a s t : String a s +:+ t = String a (s +:+ t).
Proof. reflexivity. Qed.

Lemma ends_with_iff suffix s :
  FileUpload.ends_with suffix s = true ↔ ∃ base, s = base +:+ suffix.
Proof.
  induction s as [|a s IH]; cbn [FileUpload.ends_with].
  - destruct (String.eqb_spec "" suffix) as [<-|Hne].
    + split; [by exists ""|done].
    + split; [done|]. intros [[|b base] Heq].
      * by rewrite append_nil_l in Heq.
      * by rewrite append_cons in Heq.
  - destruct (String.eqb_spec (String a s) suffix) as [<-|Hne].
    + split; [by exists ""|done].
    + rewrite IH. split.
      * intros [base ->]. by exists (String a base).
      * intros [[|b base] Heq].
        -- by rewrite append_nil_l in Heq.
        -- rewrite append_cons in Heq. injection Heq as _ ->. by exists base.
Qed.

Lemma ends_with_append suffix base tail :
  FileUpload.ends_with suffix (base +:+ tail) = true →
  FileUpload.ends_with suffix tail = true ∨ FileUpload.ends_with tail suffix = true.
Proof.
  induction base as [|a base IH]; [by left|].
  rewrite append_cons. cbn [FileUpload.ends_with].
  destruct (String.eqb_spec (String a (base +:+ tail)) suffix) as [<-|Hne].
  - intros _. right. apply ends_with_iff. by exists (String a base).
  - apply IH.
Qed.

Lemma substring_all s : String.substring 0 (String.length s) s = s.
Proof. induction s as [|b s IH]; simpl; [done|]. by rewrite IH. Qed.

Lemma substring_after_prefix prefix s :
  String.substring (String.length prefix) (String.length s) (prefix +:+ s) = s.
Proof.
  induction prefix as [|a prefix IH].
  - rewrite append_nil_l. apply substring_all.
  - rewrite append_cons. simpl. apply IH.
Qed.

(** X16: the upload filter lets a file through exactly when its original
    name ends in a dot followed by one of jpg, jpeg, png, gif, pdf, docx,
    webp, whatever comes before; every other name is refused with the
    message about image, PDF and Word files. *)
Theorem fileFilter_accepts_iff name :
  (FileUpload.fileFilter name = FileUpload.Accepted ↔
   ∃ base ext, ext ∈ FileUpload.allowedFileTypes ∧ name = base +:+ "." +:+ ext) ∧
  (FileUpload.fileFilter name ≠ FileUpload.Accepted →
   FileUpload.fileFilter name
     = FileUpload.Refused "Only image, PDF, and Word files are allowed!").
Proof.
  unfold FileUpload.fileFilter, FileUpload.matches_allowedFileTypes.
  destruct (existsb _ _) eqn:Hex.
  - split; [|done]. split; [intros _|done].
    apply existsb_exists in Hex as (ext & Hin & [base ->]%ends_with_iff).
    exists base, ext. by rewrite list_elem_of_In.
  - split; [|done]. split; [done|]. intros (base & ext & Hin & ->).
    apply not_true_iff_false in Hex. destruct Hex.
    apply existsb_exists. exists ext. rewrite <- list_elem_of_In.
    split; [done|]. apply ends_with_iff. by exists base.
Qed.

(** X17: the filter compares letter case: a name whose extension is one
    of the allowed ones written in capitals is refused, whatever the rest of
    the name. *)
Theorem fileFilter_refuses_capitals base EXT :
  EXT ∈ ["JPG"; "JPEG"; "PNG"; "GIF"; "PDF"; "DOCX"; "WEBP"] →
  FileUpload.fileFilter (base +:+ "." +:+ EXT)
    = FileUpload.Refused "Only image, PDF, and Word files are allowed!".
Proof.
  intros HEXT. apply fileFilter_accepts_iff.
  unfold FileUpload.fileFilter, FileUpload.matches_allowedFileTypes.
  destruct (existsb _ _) eqn:Hex; [|done]. exfalso.
  apply existsb_exists in Hex as (ext & Hin & Hends).
  apply ends_with_append in Hends.
  apply list_elem_of_In in HEXT. simpl in Hin, HEXT.
  repeat (destruct Hin as [<-|Hin]);
    repeat (destruct HEXT as [<-|HEXT]); try done;
    by destruct Hends as [Hends|Hends]; vm_compute in Hends.
Qed.

(** X18: an upload request without a file is answered with the
    bad-request error; one with a file is answered with the public URL of
    the stored file, from which the stored name is read back by dropping
    the base URL and the slash; the internal-server-error branch is never
    taken.  The controller passes on what the service gives. *)
Theorem uploadFile_outcome :
  FileUpload.uploadFile None
    = inl (FileUpload.BadRequestException "File not uploaded") ∧
  (∀ f : FileUpload.MulterFile,
     let url := FileUpload.baseUrl +:+ "/" +:+ FileUpload.filename f in
     FileUpload.uploadFile (Some f) = inr url ∧
     String.substring (String.length FileUpload.baseUrl + 1)
               (String.length (FileUpload.filename f)) url
       = FileUpload.filename f) ∧
  (∀ file, FileUpload.uploadFile file = FileUpload.handleFileUpload file) ∧
  (∀ file message,
     FileUpload.handleFileUpload file
       ≠ inl (FileUpload.InternalServerErrorException message)).
Proof.
  split; [done|]. split; [|split].
  - intros f url. split; [done|].
    apply (substring_after_prefix (FileUpload.baseUrl +:+ "/")).
  - intros file. unfold FileUpload.uploadFile.
    by destruct (FileUpload.handleFileUpload file).
  - by intros [f|] message.
Qed.

(** * The further properties on sample runs *)

(** A leaves R1 while B is in it: B's entry is untouched. *)
Lemma step_keeps_other_entries_witness :
  "B" ≠ origin (Signal := unit) (BE_leave_room "A" {| lr_roomId := "R1" |}) ∧
  socketList (final (step (Signal := unit) aliceAndBob
                       (BE_leave_room "A" {| lr_roomId := "R1" |}))) !! "B"
    = socketList aliceAndBob !! "B".
Proof.
  split; [by vm_compute|].
  apply (step_keeps_other_entries (Signal := unit) aliceAndBob
           (BE_leave_room "A" {| lr_roomId := "R1" |}) "B").
  by vm_compute.
Defined.

(** A, in R1 as alice, switches its video off and on again. *)
Lemma handleToggleCameraAudio_twice_witness :
  is_Some (socketList aliceAndBob !! "A") ∧
  let data := {| tg_roomId := "R1"; switchTarget := "video" |} in
  let o1 := handleToggleCameraAudio (Signal := unit) aliceAndBob "A" data in
  let o2 := handleToggleCameraAudio (Signal := unit) (final o1) "A" data in
  thrown o1 = None ∧ thrown o2 = None ∧ final o2 = aliceAndBob.
Proof.
  split; [vm_compute; eauto|].
  apply (handleToggleCameraAudio_twice (Signal := unit) aliceAndBob "A"
           {| tg_roomId := "R1"; switchTarget := "video" |}).
  vm_compute; eauto.
Defined.

(** A is in R1, and A is connected. *)
Lemma reachable_rooms_hold_connected_witness :
  reachable (Signal := unit) aliceAndBob ∧
  "A" ∈ membersOf (server aliceAndBob) "R1" ∧
  "A" ∈ sockets (server aliceAndBob).
Proof.
  split; [apply aliceAndBob_reachable|]. split; [by vm_compute|].
  apply (reachable_rooms_hold_connected (Signal := unit) aliceAndBob "R1" "A");
    [apply aliceAndBob_reachable|by vm_compute].
Defined.

(** A's chat message to R1 goes to A and B, both connected. *)
Lemma emissions_reach_connected_witness :
  let ev := BE_send_message (Signal := unit) "A"
              {| sm_roomId := "R1"; msg := "hi"; sender := "alice" |} in
  let e := mkEmit {["A"; "B"]} (FE_receive_message "hi" "alice") in
  reachable (Signal := unit) aliceAndBob ∧
  enabled aliceAndBob ev ∧
  e ∈ emitted (step aliceAndBob ev) ∧
  recipients e ⊆ sockets (server (final (step aliceAndBob ev))).
Proof.
  assert ((mkEmit {["A"; "B"]} (FE_receive_message "hi" "alice") : Emit (Signal := unit))
          ∈ emitted (step (Signal := unit) aliceAndBob
                       (BE_send_message "A"
                          {| sm_roomId := "R1"; msg := "hi"; sender := "alice" |})))
    as He by (apply list_elem_of_singleton; by vm_compute).
  split; [apply aliceAndBob_reachable|]. split; [by vm_compute|].
  split; [exact He|].
  apply (emissions_reach_connected (Signal := unit) aliceAndBob
           (BE_send_message "A" {| sm_roomId := "R1"; msg := "hi"; sender := "alice" |})
           _ aliceAndBob_reachable);
    [by vm_compute|exact He].
Defined.

(** B is connected: what A relays to B reaches B. *)
Lemma relay_reaches_live_target_witness :
  reachable (Signal := unit) aliceAndBob ∧
  "B" ∈ sockets (server aliceAndBob) ∧
  ∃ e, e ∈ emitted (handleCallUser (Signal := unit) aliceAndBob "A"
                      {| userToCall := "B"; from := "A"; cl_signal := tt |}) ∧
       "B" ∈ recipients e ∧
       payload e = FE_receive_call tt "A" (socketList aliceAndBob !! "A").
Proof.
  split; [apply aliceAndBob_reachable|]. split; [by vm_compute|].
  apply (proj1 (relay_reaches_live_target (Signal := unit) aliceAndBob "A" "B"
                  aliceAndBob_reachable ltac:(by vm_compute))
           {| userToCall := "B"; from := "A"; cl_signal := tt |}).
  reflexivity.
Defined.

(** A, connected and in R1, joins, leaves and toggles: nothing of it comes
    back to A. *)
Lemma sender_not_among_recipients_witness :
  reachable (Signal := unit) aliceAndBob ∧
  "A" ∈ sockets (server aliceAndBob) ∧
  ((∀ (d : JoinRoomData) e,
      e ∈ emitted (handleJoinRoom (Signal := unit) aliceAndBob "A" d) →
      "A" ∉ recipients e) ∧
   (∀ (d : LeaveRoomData) e,
      e ∈ emitted (handleLeaveRoom (Signal := unit) aliceAndBob "A" d) →
      "A" ∉ recipients e) ∧
   (∀ (d : ToggleData) e,
      e ∈ emitted (handleToggleCameraAudio (Signal := unit) aliceAndBob "A" d) →
      "A" ∉ recipients e)).
Proof.
  split; [apply aliceAndBob_reachable|]. split; [by vm_compute|].
  apply (sender_not_among_recipients (Signal := unit) aliceAndBob "A"
           aliceAndBob_reachable).
  by vm_compute.
Defined.

(** A has closed, its entry is still in the registry; C asks whether alice
    is in use in R1. *)
Lemma stale_entry_never_read_witness :
  let g := final (onDisconnect (Signal := unit) aliceAndBob "A") in
  let ev := BE_check_user (Signal := unit) "C"
              {| cu_roomId := "R1"; cu_userName := "alice" |} in
  let g0 := mkGateway (server g) (delete "A" (socketList g)) in
  is_Some (socketList g !! "A") ∧
  reachable (Signal := unit) g ∧
  ("A" ∉ sockets (server g)) ∧
  enabled g ev ∧
  emitted (step g0 ev) = emitted (step g ev) ∧
  thrown (step g0 ev) = thrown (step g ev) ∧
  server (final (step g0 ev)) = server (final (step g ev)) ∧
  socketList (final (step g0 ev)) = delete "A" (socketList (final (step g ev))).
Proof.
  assert (reachable (Signal := unit)
            (final (onDisconnect (Signal := unit) aliceAndBob "A"))) as Hg.
  { apply (reachable_step (Signal := unit) aliceAndBob (Disconnect "A"));
      [apply aliceAndBob_reachable|by vm_compute]. }
  split; [vm_compute; eauto|]. split; [exact Hg|].
  split; [by vm_compute|]. split; [by vm_compute|].
  apply (stale_entry_never_read (Signal := unit) _
           (BE_check_user "C" {| cu_roomId := "R1"; cu_userName := "alice" |})
           "A" Hg); by vm_compute.
Defined.

(** A closes; B stays in R1 and stays connected. *)
Lemma onDisconnect_keeps_others_witness :
  "B" ≠ "A" ∧
  let g' := final (onDisconnect (Signal := unit) aliceAndBob "A") in
  (∀ room, "B" ∈ membersOf (server g') room
           ↔ "B" ∈ membersOf (server aliceAndBob) room) ∧
  ("B" ∈ sockets (server g') ↔ "B" ∈ sockets (server aliceAndBob)).
Proof.
  split; [by vm_compute|].
  apply (onDisconnect_keeps_others (Signal := unit) aliceAndBob "A" "B").
  by vm_compute.
Defined.

(** A photo named with a capital extension. *)
Lemma fileFilter_refuses_capitals_witness :
  "JPG" ∈ ["JPG"; "JPEG"; "PNG"; "GIF"; "PDF"; "DOCX"; "WEBP"] ∧
  FileUpload.fileFilter ("photo" +:+ "." +:+ "JPG")
    = FileUpload.Refused "Only image, PDF, and Word files are allowed!".
Proof.
  split; [apply list_elem_of_here|].
  apply (fileFilter_refuses_capitals "photo" "JPG"). apply list_elem_of_here.
Defined.
